(** * gdrivewrapper: the policy layer of [gdrivewrapper/wrapper.py]

    Shallow embedding of the download chunk loop with its rate limiter
    ([_download], [GDriveWrapper.download_bytes]), of the upload body
    shaping and retry loop ([GDriveWrapper.upload]), and of the lock
    installed by [GDriveWrapper.__init__] when concurrent calls are not
    allowed.

    Python floats (the [time.perf_counter] readings and the speeds computed
    from them) are modelled as exact rationals [Q]; Python ints as [Z];
    [bytes] as [list Byte.byte]; [str] as [string]. *)

From Stdlib Require Import ZArith QArith List String Bool Lia Lqa.
From Stdlib Require Import Init.Byte.
From Stdlib Require Ascii.
Import ListNotations.

Open Scope Z_scope.

(* ------------------------------------------------------------------ *)
(** ** Python truthiness of the optional arguments *)

(** [if max_bytes_per_second:] on an [int] or [None]: [None] and [0] are
    falsy. *)
Definition truthy_int (o : option Z) : bool :=
  match o with
  | None => false
  | Some z => negb (Z.eqb z 0)
  end.

(** [if key:] / [if folder_id:] on a [str] or [None]. *)
Definition truthy_str (o : option string) : bool :=
  match o with
  | None => false
  | Some s => negb (String.eqb s EmptyString)
  end.

(** [if thumbnail:] on a [bytearray] or [None]. *)
Definition truthy_bytes (o : option (list byte)) : bool :=
  match o with
  | None => false
  | Some b => match b with [] => false | _ :: _ => true end
  end.

(* ------------------------------------------------------------------ *)
(** ** The download chunk loop: [_download] (wrapper.py, lines 18-39) *)

Module Download.

(** One call of [downloader.next_chunk()]: the bytes it writes to [fp],
    the [status.total_size] it reports, the [done] flag, and the value
    [time.perf_counter()] returns right after it (line 30). *)
Record chunk := mk_chunk {
  chunk_data : list byte;
  chunk_total_size : Z;
  chunk_done : bool;
  chunk_time : Q
}.

(** The locals of [_download]: the contents written to [fp], [prev_time],
    [prev_bytes], and the log of [time.sleep] calls made. *)
Record dl_state := mk_dl_state {
  fp : list byte;
  prev_time : Q;
  prev_bytes : Z;
  sleeps : list Q
}.

(** Outcome of the throttling block (lines 29-39) for one chunk: the
    [time.sleep] duration it used, if any, and the updated state; or the
    exception it raises. *)
Inductive throttle_result :=
| ThrottleOk (slept : option Q) (st : dl_state)
| ThrottleZeroDivision
(** [time.sleep] of a negative duration *)
| ThrottleValueError.

(** Lines 29-39.  [bytes_since_last_checked / (current_time - prev_time)]
    raises [ZeroDivisionError] when the divisor is zero; the second
    division is by a truthy, hence non-zero, ceiling.  [time.sleep] raises
    [ValueError] for a negative duration, which line 36 computes when the
    ceiling is negative and the speed is below it. *)
Definition throttle (max_bytes_per_second : option Z) (st : dl_state)
    (c : chunk) : throttle_result :=
  match max_bytes_per_second with
  | Some m =>
      if truthy_int max_bytes_per_second then
        let current_time := chunk_time c in
        let bytes_since_last_checked := chunk_total_size c - prev_bytes st in
        let elapsed := (current_time - prev_time st)%Q in
        if Qeq_bool elapsed 0 then ThrottleZeroDivision
        else
          let actual_speed := (inject_Z bytes_since_last_checked / elapsed)%Q in
          let excess_ratio := (actual_speed / inject_Z m - 1)%Q in
          if negb (Qle_bool excess_ratio 0) then
            let d := (excess_ratio * inject_Z m)%Q in
            if Qle_bool 0 d
            then ThrottleOk (Some d) (mk_dl_state (fp st) current_time
                                                  (chunk_total_size c) (sleeps st ++ [d]))
            else ThrottleValueError
          else ThrottleOk None (mk_dl_state (fp st) current_time
                                            (chunk_total_size c) (sleeps st))
      else ThrottleOk None st
  | None => ThrottleOk None st
  end.

(** The sleep duration the throttling block computes for a chunk
    ([0] when it does not sleep; [None] when it raises). *)
Definition sleep_duration (max_bytes_per_second : option Z) (st : dl_state)
    (c : chunk) : option Q :=
  match throttle max_bytes_per_second st c with
  | ThrottleZeroDivision | ThrottleValueError => None
  | ThrottleOk None _ => Some 0%Q
  | ThrottleOk (Some d) _ => Some d
  end.

Inductive dl_result :=
| DlDone (st : dl_state)
| DlZeroDivision (st : dl_state)
| DlValueError (st : dl_state)
(** the chunk stream ran out before a chunk flagged [done] *)
| DlStreamExhausted (st : dl_state).

(** The [while not done:] loop (lines 26-39): [next_chunk()] writes the
    chunk to [fp], then the throttling block runs. *)
Fixpoint download_loop (max_bytes_per_second : option Z) (done : bool)
    (st : dl_state) (stream : list chunk) : dl_result :=
  if done then DlDone st
  else
    match stream with
    | [] => DlStreamExhausted st
    | c :: rest =>
        let st1 := mk_dl_state (fp st ++ chunk_data c) (prev_time st)
                               (prev_bytes st) (sleeps st) in
        match throttle max_bytes_per_second st1 c with
        | ThrottleZeroDivision => DlZeroDivision st1
        | ThrottleValueError => DlValueError st1
        | ThrottleOk _ st2 =>
            download_loop max_bytes_per_second (chunk_done c) st2 rest
        end
    end.

(** [_download(service, key, fp, max_bytes_per_second)]: [media key] is
    the chunk stream of [service.files().get_media(fileId=key)], [t0] the
    [time.perf_counter()] reading of line 23, [fp0] what [fp] holds. *)
Definition _download (media : string -> list chunk) (key : string)
    (fp0 : list byte) (max_bytes_per_second : option Z) (t0 : Q) : dl_result :=
  download_loop max_bytes_per_second false (mk_dl_state fp0 t0 0 []) (media key).

Inductive download_error := ZeroDivisionError | ValueError | StreamExhausted.

(** [GDriveWrapper.download_bytes] (lines 87-96): a fresh [io.BytesIO],
    the loop, then [bytesio.getvalue()]. *)
Definition download_bytes (media : string -> list chunk) (key : string)
    (max_bytes_per_second : option Z) (t0 : Q)
    : list byte + download_error :=
  match _download media key [] max_bytes_per_second t0 with
  | DlDone st => inl (fp st)
  | DlZeroDivision _ => inr ZeroDivisionError
  | DlValueError _ => inr ValueError
  | DlStreamExhausted _ => inr StreamExhausted
  end.

(** The state a download ends in, whatever the outcome. *)
Definition result_state (r : dl_result) : dl_state :=
  match r with
  | DlDone st | DlZeroDivision st | DlValueError st | DlStreamExhausted st => st
  end.

(** The chunk stream flags [done] on its last chunk only. *)
Fixpoint ends_done (l : list chunk) : bool :=
  match l with
  | [] => false
  | [c] => chunk_done c
  | c :: r => negb (chunk_done c) && ends_done r
  end.

(** The [time.perf_counter()] readings strictly increase from [t]. *)
Fixpoint times_increasing (t : Q) (l : list chunk) : bool :=
  match l with
  | [] => true
  | c :: r => negb (Qle_bool (chunk_time c) t) && times_increasing (chunk_time c) r
  end.

Definition byte_a : byte := x61.
Definition byte_b : byte := x62.

(** A two-chunk stream: [done=False] then [done=True]. *)
Definition two_chunks (_ : string) : list chunk :=
  [mk_chunk [byte_a; byte_a] 4 false (1 # 1); mk_chunk [byte_b; byte_b] 4 true (2 # 1)].

(** A one-chunk stream whose [perf_counter] reading equals the start. *)
Definition one_chunk_at_t0 (_ : string) : list chunk :=
  [mk_chunk [byte_a] 1 true 0%Q].

End Download.

(* ------------------------------------------------------------------ *)
(** ** Upload: [GDriveWrapper.upload] (wrapper.py, lines 48-85) *)

Module Upload.

#[local] Set Warnings "-register-all".
#[local] Open Scope string_scope.

(** The JSON-like values that go into a request body or come back as the
    service's metadata response: [None], [str], [bytes], [list] and
    [dict].  Other Python objects (a [set], a [UserDict], ...) are not
    modelled. *)
Inductive jval :=
| JNull
| JStr (s : string)
| JBytes (b : list byte)
| JList (l : list jval)
| JObj (kv : list (string * jval)).

(** A Python [dict] keyed by [str], in insertion order. *)
Definition dict := list (string * jval).

(** [d.get(k)] *)
Fixpoint dict_get (d : dict) (k : string) : option jval :=
  match d with
  | [] => None
  | (k', v) :: r => if String.eqb k k' then Some v else dict_get r k
  end.

(** [d[k] = v]: an existing key keeps its position, a new one goes last. *)
Fixpoint dict_set (d : dict) (k : string) (v : jval) : dict :=
  match d with
  | [] => [(k, v)]
  | (k', v') :: r =>
      if String.eqb k k' then (k', v) :: r else (k', v') :: dict_set r k v
  end.

(** Lines 59-70: shaping [kwargs] into the request body.  [None] is the
    [AttributeError] of [content_hints.update] when [kwargs] already holds
    a ["contentHints"] that is not a [dict]. *)
Definition build_body (kwargs : dict) (folder_id : option string)
    (thumbnail : option (list byte)) : option dict :=
  let kw1 :=
    match folder_id with
    | Some f => if truthy_str folder_id
                then dict_set kwargs "parents" (JList [JStr f]) else kwargs
    | None => kwargs
    end in
  match thumbnail with
  | Some t =>
      if truthy_bytes thumbnail then
        let content_hints :=
          match dict_get kw1 "contentHints" with
          | None => Some []
          | Some (JObj kv) => Some kv
          | Some _ => None
          end in
        match content_hints with
        | None => None
        | Some ch =>
            let ch' := dict_set ch "thumbnail"
                         (JObj [("image", JBytes t); ("mimeType", JStr "image/png")]) in
            Some (dict_set kw1 "contentHints" (JObj ch'))
        end
      else Some kw1
  | None => Some kw1
  end.

(** The remote operations [upload] performs. *)
Inductive svc_call :=
| Update (fileId : string) (body : dict) (media_body : list byte)
| Create (body : dict) (media_body : list byte).

(** Errors [execute()] can raise. *)
Inductive svc_error :=
| SSLError (msg : string)
| BrokenPipeError (msg : string)
| OtherError (name msg : string).

(** [except (ssl.SSLError, BrokenPipeError)] *)
Definition is_transient (e : svc_error) : bool :=
  match e with
  | SSLError _ | BrokenPipeError _ => true
  | OtherError _ _ => false
  end.

(** [str(e)] *)
Definition str_of_error (e : svc_error) : string :=
  match e with
  | SSLError m | BrokenPipeError m | OtherError _ m => m
  end.

Inductive svc_response :=
| Response (v : jval)
| Raised (e : svc_error).

(** The remote service: the answer of its [i]-th invocation (counted from
    0 within one call of [upload]) to a request. *)
Definition service := nat -> svc_call -> svc_response.

Inductive upload_outcome :=
| Returned (v : jval)
| Propagated (e : svc_error)
| RuntimeError (payload : option string)
| AttributeError.

(** Lines 75-78: the request built in the loop body. *)
Definition request_of (key : option string) (body : dict) (media : list byte)
    : svc_call :=
  match key with
  | Some k => if truthy_str key then Update k body media else Create body media
  | None => Create body media
  end.

(** Lines 73-85: [for i in range(retry_count)] with [n] iterations left,
    the invocation index [i] and [last_exception_msg].  Returns the
    outcome, the requests sent in order, and the number of
    [time.sleep(1)] calls. *)
Fixpoint retry_loop (svc : service) (key : option string) (body : dict)
    (media : list byte) (n i : nat) (last_exception_msg : option string)
    : upload_outcome * list svc_call * nat :=
  match n with
  | O => (RuntimeError last_exception_msg, [], O)
  | S n' =>
      let call := request_of key body media in
      match svc i call with
      | Response v => (Returned v, [call], O)
      | Raised e =>
          if is_transient e then
            let '(r, calls, slept) :=
              retry_loop svc key body media n' (S i) (Some (str_of_error e)) in
            (r, call :: calls, S slept)
          else (Propagated e, [call], O)
      end
  end.

(** Lines 72-85 ([range] of a non-positive int is empty). *)
Definition upload_retry (svc : service) (key : option string) (body : dict)
    (media : list byte) (retry_count : Z) : upload_outcome * list svc_call * nat :=
  retry_loop svc key body media (Z.to_nat retry_count) O None.

(** [GDriveWrapper.upload(media, key, folder_id, thumbnail, retry_count,
    **kwargs)] *)
Definition upload (svc : service) (media : list byte) (key : option string)
    (folder_id : option string) (thumbnail : option (list byte))
    (retry_count : Z) (kwargs : dict) : upload_outcome * list svc_call * nat :=
  match build_body kwargs folder_id thumbnail with
  | None => (AttributeError, [], O)
  | Some body => upload_retry svc key body media retry_count
  end.

Definition DEFAULT_UPLOAD_RETRY_COUNT : Z := 5.

(** Services used in the examples. *)
Definition always_ssl : service := fun _ _ => Raised (SSLError "EOF occurred").

(** Fails with a broken pipe twice, then answers. *)
Definition flaky : service :=
  fun i _ => if Nat.ltb i 2 then Raised (BrokenPipeError "Broken pipe")
             else Response (JStr "meta").

Definition not_found : service :=
  fun _ _ => Raised (OtherError "HttpError" "File not found").

Definition answers : service := fun _ _ => Response (JObj [("id", JStr "F9")]).

End Upload.

(* ------------------------------------------------------------------ *)
(** ** The concurrency gate of [GDriveWrapper.__init__] (lines 43-46) *)

Module Gate.

#[local] Open Scope nat_scope.

(** [if not allow_concurrent_calls: prevent_concurrent_calls(self)] *)
Definition gate_enabled (allow_concurrent_calls : bool) : bool :=
  negb allow_concurrent_calls.

(** Where one caller of a public operation of the client stands. *)
Inductive pc :=
| Idle
| Acquiring
| InBody
| Exiting (ok : bool)   (** the operation returned ([true]) or raised *)
| Finished (ok : bool).

(** The debug trace events of the gate, and [EvBody t] for a step of the
    wrapped operation run by caller [t]. *)
Inductive event :=
| EvAcquiring (t : nat)
| EvAcquired (t : nat)
| EvBody (t : nat)
| EvReleased (t : nat).

Record gstate := mk_gstate {
  lock : option nat;          (** the caller holding the lock *)
  pcs : nat -> pc;
  trace : list event          (** in the order emitted *)
}.

Definition upd (f : nat -> pc) (t : nat) (p : pc) : nat -> pc :=
  fun u => if Nat.eqb u t then p else f u.

Arguments upd : simpl never.

Definition init : gstate := mk_gstate None (fun _ => Idle) [].

(** Modelled from the spec: [prevent_concurrent_calls]
    (gdrivewrapper/decorator/single.py, absent from the sources), after
    section 4.3: log "acquiring lock", acquire the shared lock (blocking),
    log "acquired lock", run the operation, and in all cases release the
    lock and log "released lock".  With the gate disabled the operation
    runs directly.  One step of one caller [t], interleaved arbitrarily. *)
Inductive step (enabled : bool) : gstate -> gstate -> Prop :=
| step_call_gated : forall l f tr t,
    enabled = true -> f t = Idle ->
    step enabled (mk_gstate l f tr)
                 (mk_gstate l (upd f t Acquiring) (tr ++ [EvAcquiring t]))
| step_call_direct : forall l f tr t,
    enabled = false -> f t = Idle ->
    step enabled (mk_gstate l f tr) (mk_gstate l (upd f t InBody) tr)
| step_acquire : forall f tr t,
    enabled = true -> f t = Acquiring ->
    step enabled (mk_gstate None f tr)
                 (mk_gstate (Some t) (upd f t InBody) (tr ++ [EvAcquired t]))
| step_body : forall l f tr t,
    f t = InBody ->
    step enabled (mk_gstate l f tr) (mk_gstate l f (tr ++ [EvBody t]))
| step_exit : forall l f tr t ok,
    f t = InBody ->
    step enabled (mk_gstate l f tr) (mk_gstate l (upd f t (Exiting ok)) tr)
| step_release : forall l f tr t ok,
    enabled = true -> f t = Exiting ok ->
    step enabled (mk_gstate l f tr)
                 (mk_gstate None (upd f t (Finished ok)) (tr ++ [EvReleased t]))
| step_return_direct : forall l f tr t ok,
    enabled = false -> f t = Exiting ok ->
    step enabled (mk_gstate l f tr) (mk_gstate l (upd f t (Finished ok)) tr).

Inductive reachable (enabled : bool) : gstate -> Prop :=
| reach_init : reachable enabled init
| reach_step : forall s s',
    reachable enabled s -> step enabled s s' -> reachable enabled s'.

(** A caller inside the gated region: running the operation or leaving it
    before the release. *)
Definition in_cs (p : pc) : bool :=
  match p with
  | InBody | Exiting _ => true
  | _ => false
  end.

(** Reading a trace with the current lock holder: an acquisition only when
    nobody holds the lock, a body step or a release only by the holder.
    [None] marks a violation. *)
Definition ev_step (h : option nat) (e : event) : option (option nat) :=
  match e with
  | EvAcquiring _ => Some h
  | EvAcquired t => match h with None => Some (Some t) | Some _ => None end
  | EvBody t =>
      match h with Some u => if Nat.eqb t u then Some h else None | None => None end
  | EvReleased t =>
      match h with Some u => if Nat.eqb t u then Some None else None | None => None end
  end.

Definition check_step (acc : option (option nat)) (e : event) : option (option nat) :=
  match acc with None => None | Some h => ev_step h e end.

Definition trace_check (tr : list event) : option (option nat) :=
  fold_left check_step tr (Some None).

Definition event_eq_dec (x y : event) : {x = y} + {x <> y}.
Proof. decide equality; apply Nat.eq_dec. Defined.

(** Invariant of the gated client. *)
Definition gate_inv (s : gstate) : Prop :=
  (forall t, lock s = Some t <-> in_cs (pcs s t) = true) /\
  trace_check (trace s) = Some (lock s) /\
  (forall t ok, pcs s t = Finished ok -> In (EvReleased t) (trace s)).

(** A run of two callers: caller 0 takes the lock, caller 1 waits, caller
    0's operation raises, the lock is released, caller 1 takes it. *)
Definition ex1 : gstate :=
  mk_gstate None (upd (pcs init) 0 Acquiring) (trace init ++ [EvAcquiring 0]).
Definition ex2 : gstate :=
  mk_gstate (Some 0) (upd (pcs ex1) 0 InBody) (trace ex1 ++ [EvAcquired 0]).
Definition ex3 : gstate :=
  mk_gstate (Some 0) (upd (pcs ex2) 1 Acquiring) (trace ex2 ++ [EvAcquiring 1]).
Definition ex4 : gstate :=
  mk_gstate (Some 0) (pcs ex3) (trace ex3 ++ [EvBody 0]).
Definition ex5 : gstate :=
  mk_gstate (Some 0) (upd (pcs ex4) 0 (Exiting false)) (trace ex4).
Definition ex6 : gstate :=
  mk_gstate None (upd (pcs ex5) 0 (Finished false)) (trace ex5 ++ [EvReleased 0]).
Definition ex7 : gstate :=
  mk_gstate (Some 1) (upd (pcs ex6) 1 InBody) (trace ex6 ++ [EvAcquired 1]).

End Gate.

(* ------------------------------------------------------------------ *)
(** ** The other operations of [wrapper.py] and of [_gdrivewrapper.py] *)

Module Drive.
Import Download Upload.
#[local] Open Scope string_scope.

(** Remote requests of the operations without a retry loop. *)
Inductive drive_call :=
| DCreate (body : dict)                          (** [files().create(body=...)] *)
| DCreateMedia (body : dict) (media_body : list byte)
                                   (** [files().create(body=..., media_body=...)] *)
| DUpdate (fileId : string) (media_body : list byte)
                                   (** [files().update(fileId=..., media_body=...)] *)
| DCommentCreate (fileId : string) (body : dict) (fields : string).
                                   (** [comments().create(fileId, body, fields)] *)

Definition drive_service := drive_call -> svc_response.

(** [request.execute()]: the response is returned, an error propagates. *)
Definition execute (svc : drive_service) (call : drive_call) : upload_outcome :=
  match svc call with
  | Response v => Returned v
  | Raised e => Propagated e
  end.

Definition FOLDER_MIME_TYPE : string := "application/vnd.google-apps.folder".

(** [GDriveWrapper.create_folder(name, folder_id, **kwargs)]
    (wrapper.py, lines 108-119): the request it sends and its result. *)
Definition create_folder_body (name : string) (folder_id : option string)
    (kwargs : dict) : dict :=
  let kw1 := dict_set kwargs "name" (JStr name) in
  let kw2 := dict_set kw1 "mimeType" (JStr FOLDER_MIME_TYPE) in
  match folder_id with
  | Some f => if truthy_str folder_id then dict_set kw2 "parents" (JList [JStr f])
              else kw2
  | None => kw2
  end.

Definition create_folder (svc : drive_service) (name : string)
    (folder_id : option string) (kwargs : dict) : upload_outcome * drive_call :=
  let call := DCreate (create_folder_body name folder_id kwargs) in
  (execute svc call, call).

(** [GDriveWrapper.create_comment(key, comment)] (wrapper.py, lines
    121-127) and [_gdrivewrapper.create_comment] (lines 84-92). *)
Definition create_comment (svc : drive_service) (key comment : string)
    : upload_outcome * drive_call :=
  let call := DCommentCreate key [("content", JStr comment)] "id" in
  (execute svc call, call).

(** [_gdrivewrapper.upload(service, media, key, **kwargs)] (lines 34-48). *)
Definition legacy_upload (svc : drive_service) (media : list byte)
    (key : option string) (kwargs : dict) : upload_outcome * drive_call :=
  let call := match key with
              | Some k => if truthy_str key then DUpdate k media
                          else DCreateMedia kwargs media
              | None => DCreateMedia kwargs media
              end in
  (execute svc call, call).

(** [_gdrivewrapper.create_folder(service, name, parent_id)] (lines 67-81). *)
Definition legacy_create_folder (svc : drive_service) (name : string)
    (parent_id : option string) : upload_outcome * drive_call :=
  let body := [("name", JStr name); ("mimeType", JStr FOLDER_MIME_TYPE)] in
  let body := match parent_id with
              | Some p => if truthy_str parent_id then dict_set body "parents" (JList [JStr p])
                          else body
              | None => body
              end in
  let call := DCreate body in
  (execute svc call, call).

(** The [while done is False:] loop of [_gdrivewrapper.download_bytes]
    (lines 58-64), without throttling; [None] when the stream runs out. *)
Fixpoint legacy_loop (done : bool) (buf : list byte) (stream : list chunk)
    : option (list byte) :=
  if done then Some buf
  else match stream with
       | [] => None
       | c :: rest => legacy_loop (chunk_done c) (buf ++ chunk_data c) rest
       end.

Definition legacy_download_bytes (media : string -> list chunk) (key : string)
    : list byte + download_error :=
  match legacy_loop false [] (media key) with
  | Some b => inl b
  | None => inr StreamExhausted
  end.

(** A local file system: the contents of each path, and which paths
    [open(path, "wb")] can open. *)
Record fs := mk_fs {
  files : string -> option (list byte);
  writable : string -> bool
}.

Definition fs_write (s : fs) (path : string) (data : list byte) : fs :=
  mk_fs (fun p => if String.eqb p path then Some data else files s p) (writable s).

Inductive file_result :=
| FileOk
| FileOpenError                      (** [open] raised: nothing written *)
| FileDownloadError (e : download_error).

(** [GDriveWrapper.download_file(key, local_path, max_bytes_per_second)]
    (wrapper.py, lines 98-106): [open(local_path, "wb")] truncates the
    file, the chunk loop writes into it, and [with] closes it on every exit
    path, leaving what was written. *)
Definition download_file (s : fs) (media : string -> list chunk) (key : string)
    (local_path : string) (max_bytes_per_second : option Z) (t0 : Q)
    : fs * file_result :=
  if writable s local_path then
    let r := _download media key [] max_bytes_per_second t0 in
    let s' := fs_write s local_path (fp (result_state r)) in
    match r with
    | DlDone _ => (s', FileOk)
    | DlZeroDivision _ => (s', FileDownloadError ZeroDivisionError)
    | DlValueError _ => (s', FileDownloadError ValueError)
    | DlStreamExhausted _ => (s', FileDownloadError StreamExhausted)
    end
  else (s, FileOpenError).

End Drive.

(* ------------------------------------------------------------------ *)
(** ** The credential store path of [get_service_object]
    (_gdrivewrapper.py, lines 20-24) *)

Module CredsPath.
Import Ascii.

(** Python [str] as a list of characters. *)
Definition pystr := list Ascii.ascii.

Definition SLASH : Ascii.ascii := "/"%char.
Definition DOT : Ascii.ascii := "."%char.

Fixpoint rfind_aux (c : Ascii.ascii) (s : pystr) (i : nat) (acc : option nat)
    : option nat :=
  match s with
  | [] => acc
  | x :: r => rfind_aux c r (S i) (if Ascii.eqb x c then Some i else acc)
  end.

(** [s.rfind(c)], [None] standing for [-1]. *)
Definition rfind (c : Ascii.ascii) (s : pystr) : option nat := rfind_aux c s 0 None.

Fixpoint drop_while (c : Ascii.ascii) (s : pystr) : pystr :=
  match s with
  | x :: r => if Ascii.eqb x c then drop_while c r else s
  | [] => []
  end.

(** [s.rstrip(c)] *)
Definition rstrip (c : Ascii.ascii) (s : pystr) : pystr :=
  rev (drop_while c (rev s)).

(** [posixpath.split(p)] *)
Definition split (p : pystr) : pystr * pystr :=
  let i := match rfind SLASH p with Some j => S j | None => O end in
  let head := firstn i p in
  let tail := skipn i p in
  let head := if negb (Nat.eqb (List.length head) 0) &&
                 negb (forallb (fun x => Ascii.eqb x SLASH) head)
              then rstrip SLASH head else head in
  (head, tail).

(** [posixpath.splitext(p)] ([genericpath._splitext] with [sep = '/'],
    no [altsep], [extsep = '.']); [-1] for a missing separator. *)
Definition splitext (p : pystr) : pystr * pystr :=
  let sepIndex := match rfind SLASH p with Some j => Z.of_nat j | None => -1 end in
  let dotIndex := match rfind DOT p with Some j => Z.of_nat j | None => -1 end in
  if Z.ltb sepIndex dotIndex then
    let filenameIndex := Z.to_nat (sepIndex + 1) in
    let between := firstn (Z.to_nat dotIndex - filenameIndex) (skipn filenameIndex p) in
    if existsb (fun x => negb (Ascii.eqb x DOT)) between
    then (firstn (Z.to_nat dotIndex) p, skipn (Z.to_nat dotIndex) p)
    else (p, [])
  else (p, []).

Definition STORE_SUFFIX : pystr := list_ascii_of_string "_store.json".

(** Lines 20-24: [f"{creds_parent}/{creds_basename}_store.json"]. *)
Definition store_path (creds_path : pystr) : pystr :=
  let creds_parent := fst (split creds_path) in
  let creds_filename := snd (split creds_path) in
  let creds_basename := fst (splitext creds_filename) in
  creds_parent ++ SLASH :: creds_basename ++ STORE_SUFFIX.

End CredsPath.

(* ------------------------------------------------------------------ *)
(** ** Properties of the download chunk loop *)

Module DownloadFacts.
Import Download.

Example download_bytes_two_chunks :
  download_bytes two_chunks "F1"%string None 0%Q = inl [byte_a; byte_a; byte_b; byte_b].
Proof. reflexivity. Qed.

Example download_bytes_two_chunks_throttled :
  download_bytes two_chunks "F1"%string (Some 1) 0%Q = inl [byte_a; byte_a; byte_b; byte_b].
Proof. reflexivity. Qed.

(** A negative ceiling with a [total_size] that goes down: the second
    chunk computes [time.sleep(-4)], which raises [ValueError]. *)
Example download_bytes_negative_sleep :
  download_bytes (fun _ => [mk_chunk [byte_a] 10 false 1; mk_chunk [byte_b] 5 false 2;
                            mk_chunk [byte_b] 5 true 3])
                 "F1"%string (Some (-1)) 0%Q = inr ValueError.
Proof. reflexivity. Qed.

Lemma throttle_falsy (m : option Z) (st : dl_state) (c : chunk) :
  truthy_int m = false -> throttle m st c = ThrottleOk None st.
Proof.
  destruct m as [z|]; simpl; intros H; [rewrite H|]; reflexivity.
Qed.

Lemma download_loop_falsy_eq (m : option Z) (done : bool) (st : dl_state)
    (l : list chunk) :
  truthy_int m = false -> download_loop m done st l = download_loop None done st l.
Proof.
  intros Hm. revert done st. induction l as [|c l IH]; intros done st;
    simpl; destruct done; try reflexivity.
  rewrite (throttle_falsy m) by exact Hm. simpl. apply IH.
Qed.

Lemma download_loop_none_state (done : bool) (st : dl_state) (l : list chunk) :
  let st' := result_state (download_loop None done st l) in
  prev_time st' = prev_time st /\ prev_bytes st' = prev_bytes st /\
  sleeps st' = sleeps st.
Proof.
  revert done st. induction l as [|c l IH]; intros done st; simpl;
    destruct done; simpl; auto.
  destruct (IH (chunk_done c)
              (mk_dl_state (fp st ++ chunk_data c) (prev_time st)
                           (prev_bytes st) (sleeps st))) as (H1 & H2 & H3).
  simpl in *. auto.
Qed.

Lemma throttle_shape (m : option Z) (st : dl_state) (c : chunk) :
  throttle m st c = ThrottleZeroDivision \/ throttle m st c = ThrottleValueError \/
  exists slept st', throttle m st c = ThrottleOk slept st' /\ fp st' = fp st /\
    (truthy_int m = true -> prev_time st' = chunk_time c).
Proof.
  unfold throttle. destruct m as [z|];
    [|right; right; exists None, st; split; [reflexivity|split; [reflexivity|discriminate]]].
  unfold truthy_int. destruct (Z.eqb z 0) eqn:Ht; simpl;
    [right; right; exists None, st; split; [reflexivity|split; [reflexivity|discriminate]]|].
  destruct (Qeq_bool (chunk_time c - prev_time st) 0); [left; reflexivity|].
  destruct (negb (Qle_bool _ 0)); [destruct (Qle_bool 0 _)|];
    try (right; left; reflexivity);
    right; right; eexists _, _; (split; [reflexivity|]); simpl; split; reflexivity.
Qed.

(** A ceiling that is not negative never makes [time.sleep] raise. *)
Lemma throttle_no_value_error (m : option Z) (st : dl_state) (c : chunk) :
  (forall z, m = Some z -> (0 <= z)%Z) -> throttle m st c <> ThrottleValueError.
Proof.
  intros Hm. unfold throttle. destruct m as [z|]; [|discriminate].
  specialize (Hm z eq_refl).
  destruct (truthy_int (Some z)); [|discriminate].
  destruct (Qeq_bool _ 0); [discriminate|].
  destruct (negb (Qle_bool _ 0)) eqn:Hex; [|discriminate].
  apply negb_true_iff in Hex.
  match goal with |- context [Qle_bool 0 ?d] => assert (Hd : Qle_bool 0 d = true) end.
  { apply Qle_bool_iff. apply Qmult_le_0_compat.
    - destruct (Qle_bool_iff (inject_Z (chunk_total_size c - prev_bytes st) /
                (chunk_time c - prev_time st) / inject_Z z - 1) 0) as [_ H].
      destruct (Qlt_le_dec 0 (inject_Z (chunk_total_size c - prev_bytes st) /
                (chunk_time c - prev_time st) / inject_Z z - 1)) as [Hp|Hp];
        [lra|rewrite H in Hex; [discriminate|exact Hp]].
    - unfold Qle. simpl. lia. }
  rewrite Hd. discriminate.
Qed.

(** With a truthy ceiling and a non-zero elapsed time, [time.sleep] raises
    exactly when the ceiling is negative and the speed is below it. *)
Lemma throttle_value_error_iff (m : option Z) (st : dl_state) (c : chunk) :
  truthy_int m = true -> ~ (chunk_time c == prev_time st)%Q ->
  (throttle m st c = ThrottleValueError <->
   exists z, m = Some z /\ (z < 0)%Z /\
     (inject_Z (chunk_total_size c - prev_bytes st) /
      (chunk_time c - prev_time st) < inject_Z z)%Q).
Proof.
  intros Hm Hne. unfold throttle. destruct m as [z|]; [|discriminate].
  rewrite Hm.
  assert (Hnz : Qeq_bool (chunk_time c - prev_time st) 0 = false).
  { destruct (Qeq_bool _ 0) eqn:E; [|reflexivity].
    apply Qeq_bool_iff in E. exfalso. apply Hne. lra. }
  rewrite Hnz.
  assert (Hz : z <> 0%Z).
  { simpl in Hm. destruct (Z.eqb_spec z 0); [discriminate|assumption]. }
  assert (Hzq : ~ (inject_Z z == 0)%Q).
  { unfold Qeq. simpl. lia. }
  set (speed := (inject_Z (chunk_total_size c - prev_bytes st) /
                 (chunk_time c - prev_time st))%Q).
  set (r := (speed / inject_Z z)%Q).
  assert (Hsr : (speed == r * inject_Z z)%Q).
  { unfold r. field. exact Hzq. }
  destruct (Z_lt_le_dec z 0) as [Hneg|Hpos].
  - assert (Hzn : (inject_Z z < 0)%Q) by (unfold Qlt; simpl; lia).
    destruct (Qle_bool (r - 1) 0) eqn:Hex; simpl.
    + apply Qle_bool_iff in Hex. split; [discriminate|].
      intros (z' & Hz' & _ & Hlt). injection Hz' as <-. nra.
    + assert (Hgt : (0 < r - 1)%Q).
      { destruct (Qlt_le_dec 0 (r - 1)) as [H|H]; [exact H|].
        apply Qle_bool_iff in H. congruence. }
      assert (Hd : Qle_bool 0 ((r - 1) * inject_Z z) = false).
      { destruct (Qle_bool 0 _) eqn:E; [|reflexivity].
        apply Qle_bool_iff in E. nra. }
      rewrite Hd. split; [intros _|reflexivity].
      exists z. split; [reflexivity|]. split; [exact Hneg|]. nra.
  - assert (Hzp : (0 < inject_Z z)%Q) by (unfold Qlt; simpl; lia).
    split; [|intros (z' & Hz' & Hlt & _); injection Hz' as <-; lia].
    destruct (negb (Qle_bool (r - 1) 0)) eqn:Hex; [|discriminate].
    apply negb_true_iff in Hex.
    assert (Hgt : (0 < r - 1)%Q).
    { destruct (Qlt_le_dec 0 (r - 1)) as [H|H]; [exact H|].
      apply Qle_bool_iff in H. congruence. }
    assert (Hd : Qle_bool 0 ((r - 1) * inject_Z z) = true).
    { apply Qle_bool_iff. nra. }
    rewrite Hd. discriminate.
Qed.

Lemma throttle_zero_iff (m : option Z) (st : dl_state) (c : chunk) :
  truthy_int m = true ->
  (throttle m st c = ThrottleZeroDivision <-> (chunk_time c == prev_time st)%Q).
Proof.
  intros Hm. unfold throttle. destruct m as [z|]; [|discriminate].
  change (truthy_int (Some z)) with (negb (Z.eqb z 0)) in Hm |- *.
  rewrite Hm. destruct (Qeq_bool (chunk_time c - prev_time st) 0) eqn:E.
  - apply Qeq_bool_iff in E. split; [intros _ | reflexivity]. lra.
  - split; [|intros H; exfalso].
    { repeat match goal with |- context [if ?b then _ else _] => destruct b end;
        discriminate. }
    assert (Hne : ~ (chunk_time c - prev_time st == 0)%Q).
    { intros Heq. apply Qeq_bool_iff in Heq. congruence. }
    apply Hne. lra.
Qed.

Lemma download_loop_concat (m : option Z) (st : dl_state) (l : list chunk) :
  (forall z, m = Some z -> (0 <= z)%Z) ->
  ends_done l = true ->
  truthy_int m = false \/ times_increasing (prev_time st) l = true ->
  exists st', download_loop m false st l = DlDone st' /\
              fp st' = fp st ++ List.concat (map chunk_data l).
Proof.
  intros Hpos. revert st. induction l as [|c l IH]; intros st Hend Hthr; [discriminate|].
  simpl download_loop.
  set (st1 := mk_dl_state (fp st ++ chunk_data c) (prev_time st)
                          (prev_bytes st) (sleeps st)).
  assert (Hnz : throttle m st1 c <> ThrottleZeroDivision).
  { destruct (truthy_int m) eqn:Hm.
    - destruct Hthr as [Hthr|Hthr]; [discriminate|].
      rewrite (throttle_zero_iff m st1 c Hm). simpl in Hthr |- *.
      apply andb_true_iff in Hthr as [Hlt _]. apply negb_true_iff in Hlt.
      intros Heq. assert (Hle : (chunk_time c <= prev_time st)%Q) by lra.
      apply Qle_bool_iff in Hle. congruence.
    - rewrite throttle_falsy by exact Hm. discriminate. }
  destruct (throttle_shape m st1 c) as [Hz|[Hv|(slept & st2 & Hst2 & Hfp & Hpt)]];
    [contradiction|exfalso; exact (throttle_no_value_error m st1 c Hpos Hv)|].
  rewrite Hst2. simpl in Hfp.
  destruct l as [|c' l'].
  - simpl in Hend. rewrite Hend. exists st2. split; [reflexivity|].
    simpl. rewrite Hfp, !app_nil_r. reflexivity.
  - change (negb (chunk_done c) && ends_done (c' :: l') = true) in Hend.
    apply andb_true_iff in Hend as [Hc Hend]. apply negb_true_iff in Hc.
    rewrite Hc.
    destruct (IH st2 Hend) as (st' & Hrun & Hfp').
    { destruct Hthr as [Hthr|Hthr]; [left; exact Hthr|].
      destruct (truthy_int m) eqn:Hm; [right|left; reflexivity].
      rewrite (Hpt eq_refl). simpl in Hthr.
      apply andb_true_iff in Hthr as [_ Hthr]. exact Hthr. }
    exists st'. split; [exact Hrun|].
    rewrite Hfp', Hfp. simpl. rewrite !app_assoc. reflexivity.
Qed.

(** ** C1 *)

(** C1 (counterexample): with a ceiling of 1000 and a first chunk arriving
    at the very [perf_counter] reading the download started at,
    [download_bytes] raises [ZeroDivisionError] instead of sleeping. *)
Lemma download_zero_elapsed_raises :
  download_bytes one_chunk_at_t0 "F1"%string (Some 1000) 0%Q = inr ZeroDivisionError.
Proof. reflexivity. Qed.

(** C1 (amended): with a truthy ceiling the chunk loop divides by the
    elapsed time without a guard: a chunk whose elapsed time since the
    previous checkpoint is zero stops the loop with [ZeroDivisionError].
    A non-zero elapsed time never raises [ZeroDivisionError]: when the
    ceiling is negative and the speed is below it, the computed sleep is
    negative and [time.sleep] stops the loop with [ValueError]; otherwise
    the loop goes on with the throttled state. *)
Theorem download_loop_unguarded_division (m : option Z) (st : dl_state)
    (c : chunk) (rest : list chunk) :
  truthy_int m = true ->
  let st1 := mk_dl_state (fp st ++ chunk_data c) (prev_time st)
                         (prev_bytes st) (sleeps st) in
  let speed := (inject_Z (chunk_total_size c - prev_bytes st) /
                (chunk_time c - prev_time st))%Q in
  ((chunk_time c == prev_time st)%Q ->
     download_loop m false st (c :: rest) = DlZeroDivision st1) /\
  (~ (chunk_time c == prev_time st)%Q ->
     (exists z, m = Some z /\ (z < 0)%Z /\ (speed < inject_Z z)%Q) ->
     download_loop m false st (c :: rest) = DlValueError st1) /\
  (~ (chunk_time c == prev_time st)%Q ->
     ~ (exists z, m = Some z /\ (z < 0)%Z /\ (speed < inject_Z z)%Q) ->
     exists slept st2, throttle m st1 c = ThrottleOk slept st2 /\
       download_loop m false st (c :: rest) = download_loop m (chunk_done c) st2 rest).
Proof.
  intros Hm st1 speed. pose proof (throttle_zero_iff m st1 c Hm) as Hiff.
  pose proof (throttle_value_error_iff m st1 c Hm) as Hviff.
  simpl prev_time in Hiff, Hviff. simpl prev_bytes in Hviff. fold speed in Hviff.
  split; [|split].
  - intros Heq. simpl. fold st1. rewrite (proj2 Hiff Heq). reflexivity.
  - intros Hne Hneg. simpl. fold st1. rewrite (proj2 (Hviff Hne) Hneg). reflexivity.
  - intros Hne Hnneg.
    destruct (throttle_shape m st1 c) as [Hz|[Hv|(slept & st2 & Hst2 & _ & _)]].
    + exfalso. apply Hne, Hiff, Hz.
    + exfalso. apply Hnneg, (Hviff Hne), Hv.
    + exists slept, st2. split; [exact Hst2|]. simpl. fold st1. rewrite Hst2.
      reflexivity.
Qed.

Lemma download_loop_unguarded_division_witness :
  (truthy_int (Some 1000) = true /\
   download_loop (Some 1000) false (mk_dl_state [] 0 0 [])
                 [mk_chunk [byte_a] 1 true 0%Q] =
     DlZeroDivision (mk_dl_state [byte_a] 0 0 [])) /\
  download_loop (Some (-1)) false (mk_dl_state [byte_a] 1 10 [])
                [mk_chunk [byte_b] 5 true 2%Q] =
    DlValueError (mk_dl_state [byte_a; byte_b] 1 10 []).
Proof.
  split; [split; [reflexivity|]|].
  - apply (proj1 (download_loop_unguarded_division (Some 1000)
                    (mk_dl_state [] 0 0 []) (mk_chunk [byte_a] 1 true 0%Q) []
                    eq_refl)).
    reflexivity.
  - apply (proj1 (proj2 (download_loop_unguarded_division (Some (-1))
                    (mk_dl_state [byte_a] 1 10 []) (mk_chunk [byte_b] 5 true 2%Q) []
                    eq_refl))).
    + discriminate.
    + exists (-1)%Z. split; [reflexivity|]. split; [lia|reflexivity].
Defined.

(** ** C2 *)

(** C2 (counterexample): with a negative ceiling of -1, a chunk of 1 byte
    after 1 second has speed 1 > -1, yet the computed sleep is 0 and not
    [(1/1/(-1) - 1) * (-1) = 2]. *)
Lemma sleep_duration_negative_ceiling :
  (inject_Z (-1) < inject_Z 1 / 1)%Q /\
  sleep_duration (Some (-1)) (mk_dl_state [] 0 0 []) (mk_chunk [] 1 false 1) = Some 0%Q /\
  ~ (0 == (inject_Z 1 / 1 / inject_Z (-1) - 1) * inject_Z (-1))%Q.
Proof.
  split; [reflexivity|]. split; [reflexivity|]. discriminate.
Qed.

(** C2 (amended): with a ceiling of [None] or [0] the sleep is 0; with a
    positive ceiling and a non-zero elapsed time, the sleep is 0 when
    [bytes/elapsed <= ceiling] and exactly
    [(bytes/elapsed/ceiling - 1) * ceiling] when [bytes/elapsed > ceiling]. *)
Theorem sleep_duration_positive_ceiling (m : option Z) (st : dl_state) (c : chunk) :
  (truthy_int m = false -> sleep_duration m st c = Some 0%Q) /\
  (forall z, m = Some z -> 0 < z -> ~ (chunk_time c - prev_time st == 0)%Q ->
     let speed := (inject_Z (chunk_total_size c - prev_bytes st) /
                   (chunk_time c - prev_time st))%Q in
     ((speed <= inject_Z z)%Q -> sleep_duration m st c = Some 0%Q) /\
     ((inject_Z z < speed)%Q ->
        sleep_duration m st c = Some ((speed / inject_Z z - 1) * inject_Z z)%Q)).
Proof.
  split.
  - intros Hm. unfold sleep_duration. rewrite throttle_falsy by exact Hm.
    reflexivity.
  - intros z -> Hz Hne speed.
    assert (Hzq : (0 < inject_Z z)%Q).
    { unfold Qlt. simpl. lia. }
    assert (Hnz : Qeq_bool (chunk_time c - prev_time st) 0 = false).
    { destruct (Qeq_bool _ 0) eqn:E; [|reflexivity].
      apply Qeq_bool_iff in E. contradiction. }
    assert (Ht : truthy_int (Some z) = true).
    { simpl. destruct (Z.eqb_spec z 0); [lia|reflexivity]. }
    unfold sleep_duration, throttle. rewrite Ht, Hnz. fold speed.
    split.
    + intros Hle.
      assert (Hr : (speed / inject_Z z <= 1)%Q).
      { apply Qle_shift_div_r; [exact Hzq|]. lra. }
      assert (Hb : Qle_bool (speed / inject_Z z - 1) 0 = true).
      { apply Qle_bool_iff. lra. }
      rewrite Hb. reflexivity.
    + intros Hlt.
      assert (Hr : (1 < speed / inject_Z z)%Q).
      { apply Qlt_shift_div_l; [exact Hzq|]. lra. }
      assert (Hb : Qle_bool (speed / inject_Z z - 1) 0 = false).
      { destruct (Qle_bool _ 0) eqn:E; [|reflexivity].
        apply Qle_bool_iff in E. lra. }
      assert (Hd : Qle_bool 0 ((speed / inject_Z z - 1) * inject_Z z) = true).
      { apply Qle_bool_iff. apply Qmult_le_0_compat; lra. }
      rewrite Hb, Hd. reflexivity.
Qed.

Lemma sleep_duration_positive_ceiling_witness :
  sleep_duration (Some 2) (mk_dl_state [] 0 0 []) (mk_chunk [] 8 false 1) =
    Some ((inject_Z (8 - 0) / (1 - 0) / inject_Z 2 - 1) * inject_Z 2)%Q.
Proof.
  apply (proj2 (proj2 (sleep_duration_positive_ceiling (Some 2)
            (mk_dl_state [] 0 0 []) (mk_chunk [] 8 false 1)) 2 eq_refl
            ltac:(lia) ltac:(discriminate))).
  reflexivity.
Defined.

(** ** C7 *)

(** C7: for a chunk stream that flags [done] on its last chunk only,
    [download_bytes] returns the in-order concatenation of all chunks'
    bytes.  This holds for the default ceiling [None], for [0], and for a
    positive ceiling provided the [perf_counter] readings strictly
    increase, as C1 requires.  (A negative ceiling can make [time.sleep]
    raise [ValueError], see C1.) *)
Theorem download_bytes_concatenates (media : string -> list chunk)
    (key : string) (m : option Z) (t0 : Q) :
  ends_done (media key) = true ->
  (forall z, m = Some z -> (0 <= z)%Z) ->
  truthy_int m = false \/ times_increasing t0 (media key) = true ->
  download_bytes media key m t0 = inl (List.concat (map chunk_data (media key))).
Proof.
  intros Hend Hpos Hthr. unfold download_bytes, _download.
  destruct (download_loop_concat m (mk_dl_state [] t0 0 []) (media key) Hpos Hend Hthr)
    as (st' & Hrun & Hfp).
  rewrite Hrun, Hfp. reflexivity.
Qed.

Lemma download_bytes_concatenates_witness :
  download_bytes two_chunks "F1"%string (Some 1) 0%Q =
    inl (List.concat (map chunk_data (two_chunks "F1"%string))).
Proof.
  apply download_bytes_concatenates;
    [reflexivity|intros z Hz; injection Hz as <-; lia|right; reflexivity].
Defined.

(** ** C10 *)

(** C10: a ceiling of [0] is falsy: each chunk's throttling block does
    nothing, the whole download runs exactly as with [None], no sleep
    happens and [prev_time], [prev_bytes] keep their initial values. *)
Theorem download_zero_ceiling_as_none (media : string -> list chunk)
    (key : string) (fp0 : list byte) (t0 : Q) :
  (forall st c, throttle (Some 0) st c = ThrottleOk None st) /\
  _download media key fp0 (Some 0) t0 = _download media key fp0 None t0 /\
  let st' := result_state (_download media key fp0 (Some 0) t0) in
  prev_time st' = t0 /\ prev_bytes st' = 0 /\ sleeps st' = [].
Proof.
  assert (Heq : _download media key fp0 (Some 0) t0 = _download media key fp0 None t0).
  { unfold _download. apply download_loop_falsy_eq. reflexivity. }
  split; [intros st c; apply throttle_falsy; reflexivity|].
  split; [exact Heq|].
  rewrite Heq. unfold _download.
  apply (download_loop_none_state false (mk_dl_state fp0 t0 0 [])).
Qed.

End DownloadFacts.

(* ------------------------------------------------------------------ *)
(** ** Properties of the upload retry loop *)

Module UploadFacts.
Import Upload.
#[local] Open Scope string_scope.
#[local] Open Scope nat_scope.

Section RetryLoop.

Variable svc : service.
Variables (key : option string) (body : dict) (media : list byte).

Let call := request_of key body media.

Lemma retry_loop_exhaust (n i : nat) (last_msg : option string) :
  (forall j, exists e, svc j call = Raised e /\ is_transient e = true) ->
  exists e, svc (i + n) call = Raised e /\
    retry_loop svc key body media (S n) i last_msg =
      (RuntimeError (Some (str_of_error e)), repeat call (S n), S n).
Proof.
  intros Hall. revert i last_msg. induction n as [|n IH]; intros i last_msg.
  - destruct (Hall i) as (e & He & Ht). exists e. rewrite Nat.add_0_r.
    split; [exact He|]. simpl. fold call. rewrite He, Ht. reflexivity.
  - destruct (Hall i) as (e0 & He0 & Ht0).
    destruct (IH (S i) (Some (str_of_error e0))) as (e & He & Hrun).
    exists e. split; [rewrite Nat.add_succ_r; exact He|].
    change (retry_loop svc key body media (S (S n)) i last_msg) with
      (match svc i call with
       | Response v => (Returned v, [call], O)
       | Raised e =>
           if is_transient e then
             let '(r, calls, slept) :=
               retry_loop svc key body media (S n) (S i) (Some (str_of_error e)) in
             (r, call :: calls, S slept)
           else (Propagated e, [call], O)
       end).
    rewrite He0, Ht0, Hrun. reflexivity.
Qed.

Lemma retry_loop_recover (k n i : nat) (last_msg : option string) (v : jval) :
  (k < n)%nat ->
  (forall j, (j < k)%nat -> exists e, svc (i + j) call = Raised e /\ is_transient e = true) ->
  svc (i + k) call = Response v ->
  retry_loop svc key body media n i last_msg = (Returned v, repeat call (S k), k).
Proof.
  revert n i last_msg. induction k as [|k IH]; intros n i last_msg Hk Hpre Hok.
  - destruct n as [|n]; [lia|]. rewrite Nat.add_0_r in Hok.
    simpl. fold call. rewrite Hok. reflexivity.
  - destruct n as [|n]; [lia|].
    destruct (Hpre 0%nat ltac:(lia)) as (e0 & He0 & Ht0). rewrite Nat.add_0_r in He0.
    simpl. fold call. rewrite He0, Ht0.
    rewrite (IH n (S i) (Some (str_of_error e0))).
    + reflexivity.
    + lia.
    + intros j Hj. replace (S i + j) with (i + S j) by lia. apply Hpre. lia.
    + replace (S i + k) with (i + S k) by lia. exact Hok.
Qed.

Lemma retry_loop_requests (n i : nat) (last_msg : option string) :
  let '(r, calls, _) := retry_loop svc key body media n i last_msg in
  Forall (fun c => c = call) calls /\
  (forall v, r = Returned v ->
     calls <> [] /\ svc (i + pred (List.length calls)) call = Response v).
Proof.
  revert i last_msg. induction n as [|n IH]; intros i last_msg.
  - simpl. split; [constructor|discriminate].
  - simpl. fold call. destruct (svc i call) as [v|e] eqn:Hs.
    + split; [repeat constructor|].
      intros v' Hv. injection Hv as <-. split; [discriminate|].
      rewrite Nat.add_0_r. exact Hs.
    + destruct (is_transient e).
      * specialize (IH (S i) (Some (str_of_error e))).
        destruct (retry_loop svc key body media n (S i) (Some (str_of_error e)))
          as [[r calls] slept].
        destruct IH as [Hall Hret]. split; [constructor; auto|].
        intros v Hv. destruct (Hret v Hv) as [Hne Hs'].
        split; [discriminate|].
        destruct calls as [|c0 calls]; [contradiction|].
        simpl in Hs' |- *. replace (i + S (List.length calls)) with (S i + List.length calls)
          by lia. exact Hs'.
      * split; [repeat constructor|discriminate].
Qed.

End RetryLoop.

(** ** C3 *)

(** C3: when every invocation fails with [SSLError] or [BrokenPipeError]
    and [retry_count > 0], the loop sends exactly [retry_count] requests
    (sleeping after each) and raises [RuntimeError] carrying only
    [str(e)] of the last attempt's error. *)
Theorem upload_retry_exhausted (svc : service) (key : option string)
    (body : dict) (media : list byte) (retry_count : Z) :
  (0 < retry_count)%Z ->
  (forall j, exists e, svc j (request_of key body media) = Raised e /\
                       is_transient e = true) ->
  exists e, svc (Z.to_nat retry_count - 1) (request_of key body media) = Raised e /\
    upload_retry svc key body media retry_count =
      (RuntimeError (Some (str_of_error e)),
       repeat (request_of key body media) (Z.to_nat retry_count),
       Z.to_nat retry_count).
Proof.
  intros Hpos Hall. unfold upload_retry.
  destruct (Z.to_nat retry_count) as [|n] eqn:Hn; [lia|].
  replace (S n - 1) with n by lia.
  exact (retry_loop_exhaust svc key body media n 0 None Hall).
Qed.

Lemma upload_retry_exhausted_witness :
  exists e, always_ssl 2 (request_of None [] []) = Raised e /\
    upload_retry always_ssl None [] [] 3 =
      (RuntimeError (Some (str_of_error e)), repeat (Create [] []) 3, 3).
Proof.
  apply (upload_retry_exhausted always_ssl None [] [] 3).
  - lia.
  - intros j. exists (SSLError "EOF occurred"). split; reflexivity.
Defined.

(** ** C4 *)

(** C4: when the first [k < retry_count] invocations fail transiently and
    invocation [k+1] answers [v], the loop returns [v] after exactly [k+1]
    requests. *)
Theorem upload_retry_recovers (svc : service) (key : option string)
    (body : dict) (media : list byte) (retry_count : Z) (k : nat) (v : jval) :
  k < Z.to_nat retry_count ->
  (forall j, j < k -> exists e, svc j (request_of key body media) = Raised e /\
                                is_transient e = true) ->
  svc k (request_of key body media) = Response v ->
  upload_retry svc key body media retry_count =
    (Returned v, repeat (request_of key body media) (S k), k).
Proof.
  intros Hk Hpre Hok. unfold upload_retry.
  apply (retry_loop_recover svc key body media k _ 0 None v Hk); assumption.
Qed.

Lemma upload_retry_recovers_witness :
  upload_retry flaky (Some "F1") [] [] 5 =
    (Returned (JStr "meta"), repeat (Update "F1" [] []) 3, 2).
Proof.
  apply (upload_retry_recovers flaky (Some "F1") [] [] 5 2 (JStr "meta")).
  - simpl. lia.
  - intros j Hj. exists (BrokenPipeError "Broken pipe"). unfold flaky.
    destruct (Nat.ltb_spec j 2); [split; reflexivity|lia].
  - reflexivity.
Defined.

(** ** C5 *)

(** C5: when the first invocation raises an error other than [SSLError]
    or [BrokenPipeError], the loop sends exactly one request and propagates
    that error unchanged. *)
Theorem upload_retry_non_transient (svc : service) (key : option string)
    (body : dict) (media : list byte) (retry_count : Z) (e : svc_error) :
  (0 < retry_count)%Z ->
  svc 0 (request_of key body media) = Raised e ->
  is_transient e = false ->
  upload_retry svc key body media retry_count =
    (Propagated e, [request_of key body media], 0).
Proof.
  intros Hpos He Ht. unfold upload_retry.
  destruct (Z.to_nat retry_count) as [|n] eqn:Hn; [lia|].
  simpl. rewrite He, Ht. reflexivity.
Qed.

Lemma upload_retry_non_transient_witness :
  upload_retry not_found (Some "F1") [] [] 5 =
    (Propagated (OtherError "HttpError" "File not found"), [Update "F1" [] []], 0).
Proof.
  apply (upload_retry_non_transient not_found (Some "F1") [] [] 5); reflexivity.
Defined.

(** ** C6 *)

(** C6 (counterexample): [key=""] is given but falsy: [upload] creates a
    new file rather than updating file [""]. *)
Lemma upload_empty_key_creates :
  let '(r, calls, _) := upload answers [] (Some "") None None 5 [] in
  calls = [Create [] []] /\ ~ In (Update "" [] []) calls /\
  r = Returned (JObj [("id", JStr "F9")]).
Proof.
  simpl. split; [reflexivity|]. split; [|reflexivity].
  intros [H|H]; [discriminate|contradiction].
Qed.

(** C6 (amended): every remote operation [upload] performs is an update of
    exactly file [k] when [key] is a non-empty string [k], and a create
    when [key] is [None] or [""]; a value it returns is the service's
    response to its last request, verbatim. *)
Theorem upload_request_kind (svc : service) (media : list byte)
    (key folder_id : option string) (thumbnail : option (list byte))
    (retry_count : Z) (kwargs : dict) :
  match build_body kwargs folder_id thumbnail with
  | None => upload svc media key folder_id thumbnail retry_count kwargs =
              (AttributeError, [], 0)
  | Some body =>
      let '(r, calls, _) := upload svc media key folder_id thumbnail retry_count kwargs in
      (forall k, key = Some k -> k <> "" ->
         Forall (fun c => c = Update k body media) calls) /\
      ((key = None \/ key = Some "") ->
         Forall (fun c => c = Create body media) calls) /\
      (forall v, r = Returned v ->
         calls <> [] /\
         svc (pred (List.length calls)) (last calls (Create body media)) = Response v)
  end.
Proof.
  unfold upload. destruct (build_body kwargs folder_id thumbnail) as [body|];
    [|reflexivity].
  unfold upload_retry.
  pose proof (retry_loop_requests svc key body media (Z.to_nat retry_count) 0 None)
    as Hreq.
  destruct (retry_loop svc key body media (Z.to_nat retry_count) 0 None)
    as [[r calls] slept].
  destruct Hreq as [Hall Hret].
  split; [|split].
  - intros k -> Hk. unfold request_of, truthy_str in Hall.
    destruct (String.eqb_spec k "") as [E|_]; [contradiction|exact Hall].
  - intros [-> | ->]; exact Hall.
  - intros v Hv. destruct (Hret v Hv) as [Hne Hs]. split; [exact Hne|].
    assert (Hl : last calls (Create body media) = request_of key body media).
    { destruct calls as [|c0 calls]; [contradiction|].
      rewrite Forall_forall in Hall. apply Hall.
      pose proof (@app_removelast_last _ (c0 :: calls) (Create body media)
                    ltac:(discriminate)) as E.
      rewrite E at 2. apply in_or_app. right. left. reflexivity. }
    rewrite Hl. exact Hs.
Qed.

(** ** C9 *)

(** C9: with [retry_count <= 0] the loop body never runs: no request is
    sent, nothing sleeps, and [RuntimeError(None)] is raised. *)
Theorem upload_retry_nonpositive (svc : service) (key : option string)
    (body : dict) (media : list byte) (retry_count : Z) :
  (retry_count <= 0)%Z ->
  upload_retry svc key body media retry_count = (RuntimeError None, [], 0).
Proof.
  intros Hle. unfold upload_retry.
  replace (Z.to_nat retry_count) with 0 by lia. reflexivity.
Qed.

Lemma upload_retry_nonpositive_witness :
  upload_retry answers (Some "F1") [] [] 0 = (RuntimeError None, [], 0).
Proof.
  apply upload_retry_nonpositive. lia.
Defined.

End UploadFacts.

(* ------------------------------------------------------------------ *)
(** ** Properties of the concurrency gate *)

Module GateFacts.
Import Gate.
#[local] Open Scope nat_scope.

Lemma trace_check_app (tr : list event) (e : event) :
  trace_check (tr ++ [e]) = check_step (trace_check tr) e.
Proof. unfold trace_check. rewrite fold_left_app. reflexivity. Qed.

Lemma fold_check_none (l : list event) : fold_left check_step l None = None.
Proof. induction l as [|e l IH]; simpl; auto. Qed.

Lemma fold_check_held (a : nat) (mid : list event) (h : option nat) :
  fold_left check_step mid (Some (Some a)) = Some h ->
  ~ In (EvReleased a) mid -> h = Some a.
Proof.
  induction mid as [|e mid IH]; simpl; intros Hf Hn.
  - congruence.
  - destruct e as [t|t|t|t]; simpl in Hf.
    + apply IH; auto.
    + rewrite fold_check_none in Hf. discriminate.
    + destruct (Nat.eqb t a); [apply IH; auto|].
      rewrite fold_check_none in Hf. discriminate.
    + destruct (Nat.eqb_spec t a) as [->|_]; [exfalso; auto|].
      rewrite fold_check_none in Hf. discriminate.
Qed.

Lemma upd_same (f : nat -> pc) (t : nat) (p : pc) : upd f t p t = p.
Proof. unfold upd. rewrite Nat.eqb_refl. reflexivity. Qed.

Lemma upd_other (f : nat -> pc) (t u : nat) (p : pc) :
  u <> t -> upd f t p u = f u.
Proof. intros H. unfold upd. destruct (Nat.eqb_spec u t); congruence. Qed.

Lemma gate_inv_init : gate_inv init.
Proof.
  split; [|split].
  - intros t. simpl. split; discriminate.
  - reflexivity.
  - intros t ok H. discriminate.
Qed.

Ltac upd_cases u t :=
  cbn [pcs lock trace] in *;
  destruct (Nat.eq_dec u t) as [->|?];
  [rewrite !upd_same | rewrite !upd_other by assumption].

Lemma gate_inv_step (s s' : gstate) :
  gate_inv s -> step true s s' -> gate_inv s'.
Proof.
  intros (Hlock & Htr & Hfin) Hst.
  destruct Hst as [l f tr t _ Hf | l f tr t Hen | f tr t _ Hf | l f tr t Hf
                  | l f tr t ok Hf | l f tr t ok _ Hf | l f tr t ok Hen];
    simpl in *; try discriminate.
  - (* "acquiring lock" *)
    split; [|split]; cbn [pcs lock trace].
    + intros u. rewrite Hlock. upd_cases u t; [rewrite Hf|]; reflexivity.
    + rewrite trace_check_app, Htr. reflexivity.
    + intros u ok. upd_cases u t; [discriminate|].
      intros Hu. apply in_or_app. left. exact (Hfin u ok Hu).
  - (* acquisition, the lock being free *)
    split; [|split]; cbn [pcs lock trace].
    + intros u. upd_cases u t; [split; reflexivity|].
      rewrite <- Hlock. split; congruence.
    + rewrite trace_check_app, Htr. reflexivity.
    + intros u ok. upd_cases u t; [discriminate|].
      intros Hu. apply in_or_app. left. exact (Hfin u ok Hu).
  - (* a step of the operation, by the holder *)
    assert (Hl : l = Some t) by (apply Hlock; rewrite Hf; reflexivity).
    split; [|split]; cbn [pcs lock trace].
    + exact Hlock.
    + rewrite trace_check_app, Htr, Hl. simpl. rewrite Nat.eqb_refl. reflexivity.
    + intros u ok Hu. apply in_or_app. left. exact (Hfin u ok Hu).
  - (* the operation returns or raises *)
    split; [|split]; cbn [pcs lock trace].
    + intros u. rewrite Hlock. upd_cases u t; [rewrite Hf|]; reflexivity.
    + exact Htr.
    + intros u ok'. upd_cases u t; [discriminate|]. apply Hfin.
  - (* release, on every exit path *)
    assert (Hl : l = Some t) by (apply Hlock; rewrite Hf; reflexivity).
    split; [|split]; cbn [pcs lock trace].
    + intros u. upd_cases u t; [split; discriminate|].
      split; [discriminate|]. intros Hu. apply Hlock in Hu. congruence.
    + rewrite trace_check_app, Htr, Hl. simpl. rewrite Nat.eqb_refl. reflexivity.
    + intros u ok'. upd_cases u t.
      * intros _. apply in_or_app. right. left. reflexivity.
      * intros Hu. apply in_or_app. left. exact (Hfin u ok' Hu).
Qed.

Lemma gate_inv_reachable (s : gstate) : reachable true s -> gate_inv s.
Proof.
  induction 1 as [|s s' _ IH Hst].
  - exact gate_inv_init.
  - exact (gate_inv_step s s' IH Hst).
Qed.

Lemma trace_check_after_acquire (pre mid post : list event) (a : nat) (e : event) :
  trace_check (pre ++ EvAcquired a :: mid ++ e :: post) <> None ->
  ~ In (EvReleased a) mid -> ev_step (Some a) e <> None.
Proof.
  intros Hall Hnr He. apply Hall. clear Hall.
  unfold trace_check. rewrite fold_left_app. cbn [fold_left].
  destruct (fold_left check_step pre (Some None)) as [[u|]|];
    cbn [check_step ev_step]; try apply fold_check_none.
  rewrite fold_left_app.
  destruct (fold_left check_step mid (Some (Some a))) as [h1|] eqn:Hmid;
    cbn [fold_left]; [|apply fold_check_none].
  rewrite (fold_check_held a mid h1 Hmid Hnr). cbn [check_step].
  rewrite He. apply fold_check_none.
Qed.

(** ** C8 *)

(** C8 (modelled from the spec, the decorator being absent from the
    sources): with [allow_concurrent_calls=False], in every interleaving
    of any number of callers, at most one caller is inside a gated
    operation; after caller [a] acquires the lock, no other caller
    acquires it, nor runs a step of its operation, before [a] releases it;
    and every caller that has left its operation, by a return or by an
    exception, has released the lock. *)
Theorem gate_serializes (s : gstate) :
  reachable (gate_enabled false) s ->
  (forall t u, in_cs (pcs s t) = true -> in_cs (pcs s u) = true -> t = u) /\
  (forall pre mid post a b,
     trace s = pre ++ EvAcquired a :: mid ++ EvAcquired b :: post ->
     In (EvReleased a) mid) /\
  (forall pre mid post a t,
     trace s = pre ++ EvAcquired a :: mid ++ EvBody t :: post ->
     t = a \/ In (EvReleased a) mid) /\
  (forall t ok, pcs s t = Finished ok ->
     In (EvReleased t) (trace s) /\ lock s <> Some t).
Proof.
  intros Hr. destruct (gate_inv_reachable s Hr) as (Hlock & Htr & Hfin).
  assert (Hnn : trace_check (trace s) <> None) by congruence.
  split; [|split; [|split]].
  - intros t u Ht Hu. apply Hlock in Ht, Hu. congruence.
  - intros pre mid post a b He.
    destruct (in_dec event_eq_dec (EvReleased a) mid) as [Hin|Hnr]; [exact Hin|].
    exfalso. rewrite He in Hnn.
    apply (trace_check_after_acquire pre mid post a (EvAcquired b) Hnn Hnr).
    reflexivity.
  - intros pre mid post a t He.
    destruct (in_dec event_eq_dec (EvReleased a) mid) as [Hin|Hnr]; [right; exact Hin|].
    left. rewrite He in Hnn.
    pose proof (trace_check_after_acquire pre mid post a (EvBody t) Hnn Hnr) as H.
    simpl in H. destruct (Nat.eqb_spec t a); [assumption|]. exfalso; apply H; reflexivity.
  - intros t ok Hf. split; [exact (Hfin t ok Hf)|].
    rewrite Hlock, Hf. discriminate.
Qed.

Lemma gate_serializes_witness :
  (forall t u, in_cs (pcs ex7 t) = true -> in_cs (pcs ex7 u) = true -> t = u) /\
  (forall pre mid post a b,
     trace ex7 = pre ++ EvAcquired a :: mid ++ EvAcquired b :: post ->
     In (EvReleased a) mid) /\
  (forall pre mid post a t,
     trace ex7 = pre ++ EvAcquired a :: mid ++ EvBody t :: post ->
     t = a \/ In (EvReleased a) mid) /\
  (forall t ok, pcs ex7 t = Finished ok ->
     In (EvReleased t) (trace ex7) /\ lock ex7 <> Some t).
Proof.
  apply gate_serializes.
  refine (reach_step _ ex6 ex7 _ (step_acquire _ (pcs ex6) (trace ex6) 1 eq_refl eq_refl)).
  refine (reach_step _ ex5 ex6 _
            (step_release _ (Some 0) (pcs ex5) (trace ex5) 0 false eq_refl eq_refl)).
  refine (reach_step _ ex4 ex5 _ (step_exit _ (Some 0) (pcs ex4) (trace ex4) 0 false eq_refl)).
  refine (reach_step _ ex3 ex4 _ (step_body _ (Some 0) (pcs ex3) (trace ex3) 0 eq_refl)).
  refine (reach_step _ ex2 ex3 _
            (step_call_gated _ (Some 0) (pcs ex2) (trace ex2) 1 eq_refl eq_refl)).
  refine (reach_step _ ex1 ex2 _ (step_acquire _ (pcs ex1) (trace ex1) 0 eq_refl eq_refl)).
  refine (reach_step _ init ex1 _
            (step_call_gated _ None (pcs init) (trace init) 0 eq_refl eq_refl)).
  apply reach_init.
Defined.

End GateFacts.

(* ------------------------------------------------------------------ *)
(** ** Further properties of [upload]: body shaping and retry bounds *)

Module UploadBodyFacts.
Import Upload.
#[local] Open Scope string_scope.

Lemma dict_get_set_same (d : dict) (k : string) (v : jval) :
  dict_get (dict_set d k v) k = Some v.
Proof.
  induction d as [|[k' v'] d IH]; simpl.
  - rewrite String.eqb_refl. reflexivity.
  - destruct (String.eqb_spec k k') as [->|Hne]; simpl.
    + rewrite String.eqb_refl. reflexivity.
    + destruct (String.eqb_spec k k'); [contradiction|exact IH].
Qed.

Lemma dict_get_set_other (d : dict) (k k' : string) (v : jval) :
  k' <> k -> dict_get (dict_set d k v) k' = dict_get d k'.
Proof.
  intros Hne. induction d as [|[k0 v0] d IH]; simpl.
  - destruct (String.eqb_spec k' k); [contradiction|reflexivity].
  - destruct (String.eqb_spec k k0) as [->|_]; simpl.
    + destruct (String.eqb_spec k' k0); [contradiction|reflexivity].
    + rewrite IH. reflexivity.
Qed.

(** The [kwargs] after the [folder_id] step of [build_body]. *)
Lemma build_body_contentHints_before (kwargs : dict) (folder_id : option string) :
  dict_get (match folder_id with
            | Some f => if truthy_str folder_id
                        then dict_set kwargs "parents" (JList [JStr f]) else kwargs
            | None => kwargs
            end) "contentHints" = dict_get kwargs "contentHints".
Proof.
  destruct folder_id as [f|]; [|reflexivity].
  destruct (truthy_str (Some f)); [|reflexivity].
  apply dict_get_set_other. discriminate.
Qed.

(** X1: [upload] sends [parents = [folder_id]] for a non-empty
    [folder_id] (overriding a caller's ["parents"]) and passes every other
    keyword argument except ["contentHints"] through unchanged. *)
Theorem build_body_parents_and_passthrough (kwargs : dict) (folder_id : option string)
    (thumbnail : option (list byte)) (body : dict) :
  build_body kwargs folder_id thumbnail = Some body ->
  dict_get body "parents" =
    match folder_id with
    | Some f => if truthy_str folder_id then Some (JList [JStr f])
                else dict_get kwargs "parents"
    | None => dict_get kwargs "parents"
    end /\
  (forall k, k <> "parents" -> k <> "contentHints" -> dict_get body k = dict_get kwargs k).
Proof.
  unfold build_body.
  set (kw1 := match folder_id with
              | Some f => if truthy_str folder_id
                          then dict_set kwargs "parents" (JList [JStr f]) else kwargs
              | None => kwargs
              end).
  assert (Hp : dict_get kw1 "parents" =
    match folder_id with
    | Some f => if truthy_str folder_id then Some (JList [JStr f])
                else dict_get kwargs "parents"
    | None => dict_get kwargs "parents"
    end).
  { unfold kw1. destruct folder_id as [f|]; [|reflexivity].
    destruct (truthy_str (Some f)); [apply dict_get_set_same|reflexivity]. }
  assert (Ho : forall k, k <> "parents" -> dict_get kw1 k = dict_get kwargs k).
  { intros k Hk. unfold kw1. destruct folder_id as [f|]; [|reflexivity].
    destruct (truthy_str (Some f)); [apply dict_get_set_other; exact Hk|reflexivity]. }
  intros Hb.
  destruct thumbnail as [t|];
    [|injection Hb as <-; split; [exact Hp|intros k Hk _; apply Ho, Hk]].
  destruct (truthy_bytes (Some t));
    [|injection Hb as <-; split; [exact Hp|intros k Hk _; apply Ho, Hk]].
  destruct (dict_get kw1 "contentHints") as [[]|]; try discriminate;
    injection Hb as <-;
    (split; [rewrite dict_get_set_other by discriminate; exact Hp|]);
    intros k Hk Hc; rewrite dict_get_set_other by exact Hc; apply Ho, Hk.
Qed.

Lemma build_body_parents_and_passthrough_witness :
  dict_get [("parents", JList [JStr "P1"]); ("name", JStr "a.txt")] "parents" =
    Some (JList [JStr "P1"]) /\
  (forall k, k <> "parents" -> k <> "contentHints" ->
     dict_get [("parents", JList [JStr "P1"]); ("name", JStr "a.txt")] k =
     dict_get [("parents", JList [JStr "old"]); ("name", JStr "a.txt")] k).
Proof.
  exact (build_body_parents_and_passthrough
           [("parents", JList [JStr "old"]); ("name", JStr "a.txt")] (Some "P1") None
           [("parents", JList [JStr "P1"]); ("name", JStr "a.txt")] eq_refl).
Defined.

(** X2: with a non-empty thumbnail, the body's ["contentHints"] is the
    caller's [contentHints] dict (or a new one) with ["thumbnail"] set to
    [{"image": thumbnail, "mimeType": "image/png"}]; the dict's other
    entries are kept. *)
Theorem build_body_thumbnail (kwargs : dict) (folder_id : option string)
    (t : list byte) (ch : dict) :
  t <> [] ->
  (dict_get kwargs "contentHints" = None \/
   dict_get kwargs "contentHints" = Some (JObj ch)) ->
  exists body ch',
    build_body kwargs folder_id (Some t) = Some body /\
    dict_get body "contentHints" = Some (JObj ch') /\
    dict_get ch' "thumbnail" =
      Some (JObj [("image", JBytes t); ("mimeType", JStr "image/png")]) /\
    (forall k, k <> "thumbnail" -> dict_get ch' k =
       match dict_get kwargs "contentHints" with Some (JObj c) => dict_get c k | _ => None end).
Proof.
  intros Ht Hch. unfold build_body.
  rewrite <- (build_body_contentHints_before kwargs folder_id) in Hch |- *.
  set (kw1 := match folder_id with
              | Some f => if truthy_str folder_id
                          then dict_set kwargs "parents" (JList [JStr f]) else kwargs
              | None => kwargs
              end) in *.
  replace (truthy_bytes (Some t)) with true by (destruct t; [contradiction|reflexivity]).
  destruct Hch as [Hn|Hs].
  - rewrite Hn. eexists _, _. split; [reflexivity|]. split.
    { apply dict_get_set_same. }
    split; [reflexivity|].
    intros k Hk. simpl. destruct (String.eqb_spec k "thumbnail"); [contradiction|reflexivity].
  - rewrite Hs. eexists _, _. split; [reflexivity|]. split.
    { apply dict_get_set_same. }
    split; [apply dict_get_set_same|].
    intros k Hk. apply dict_get_set_other, Hk.
Qed.

Lemma build_body_thumbnail_witness :
  exists body ch',
    build_body [("contentHints", JObj [("indexableText", JStr "x")])] None
               (Some [x01]) = Some body /\
    dict_get body "contentHints" = Some (JObj ch') /\
    dict_get ch' "thumbnail" =
      Some (JObj [("image", JBytes [x01]); ("mimeType", JStr "image/png")]) /\
    (forall k, k <> "thumbnail" -> dict_get ch' k =
       match dict_get [("contentHints", JObj [("indexableText", JStr "x")])]
                      "contentHints" with
       | Some (JObj c) => dict_get c k | _ => None end).
Proof.
  apply (build_body_thumbnail _ None [x01] [("indexableText", JStr "x")]).
  - discriminate.
  - right. reflexivity.
Defined.


Lemma retry_loop_counts (svc : service) (key : option string) (body : dict)
    (media : list byte) (n i : nat) (last_msg : option string) :
  let '(r, calls, slept) := retry_loop svc key body media n i last_msg in
  (List.length calls <= n)%nat /\
  match r with
  | RuntimeError _ => slept = List.length calls
  | Returned _ | Propagated _ => S slept = List.length calls
  | AttributeError => False
  end.
Proof.
  revert i last_msg. induction n as [|n IH]; intros i last_msg; simpl.
  - split; [lia|reflexivity].
  - destruct (svc i (request_of key body media)) as [v|e]; [split; simpl; lia|].
    destruct (is_transient e); [|split; simpl; lia].
    specialize (IH (S i) (Some (str_of_error e))).
    destruct (retry_loop svc key body media n (S i) (Some (str_of_error e)))
      as [[r calls] slept].
    destruct IH as [Hl Hr]. split; [simpl; lia|].
    destruct r; simpl; lia.
Qed.

(** X5: [upload] sends at most [retry_count] requests (none when
    [retry_count <= 0]) and calls [time.sleep(1)] once after each
    transient failure, the last one included: as many sleeps as requests
    when it gives up with [RuntimeError], one fewer when it returns or
    propagates an error. *)
Theorem upload_request_and_sleep_counts (svc : service) (media : list byte)
    (key folder_id : option string) (thumbnail : option (list byte))
    (retry_count : Z) (kwargs : dict) :
  let '(r, calls, slept) := upload svc media key folder_id thumbnail retry_count kwargs in
  (List.length calls <= Z.to_nat retry_count)%nat /\
  match r with
  | RuntimeError _ => slept = List.length calls
  | Returned _ | Propagated _ => S slept = List.length calls
  | AttributeError => calls = [] /\ slept = O
  end.
Proof.
  unfold upload. destruct (build_body kwargs folder_id thumbnail) as [body|];
    [|simpl; split; [lia|split; reflexivity]].
  unfold upload_retry.
  pose proof (retry_loop_counts svc key body media (Z.to_nat retry_count) O None) as H.
  destruct (retry_loop svc key body media (Z.to_nat retry_count) O None)
    as [[r calls] slept].
  destruct H as [Hl Hr]. split; [exact Hl|]. destruct r; auto; contradiction.
Qed.

End UploadBodyFacts.

(* ------------------------------------------------------------------ *)
(** ** Properties of the other operations *)

Module DriveFacts.
Import Download Upload Drive UploadBodyFacts.
#[local] Open Scope string_scope.

(** X6: [create_folder] sends one [files().create] whose body has
    ["name"] and ["mimeType"] set to the folder type (overriding the
    caller's), ["parents"] set to [[folder_id]] for a non-empty
    [folder_id], and every other keyword argument unchanged; it returns
    the response or propagates the error of that single request. *)
Theorem create_folder_request (svc : drive_service) (name : string)
    (folder_id : option string) (kwargs : dict) :
  let '(r, call) := create_folder svc name folder_id kwargs in
  exists body, call = DCreate body /\ r = execute svc call /\
    dict_get body "name" = Some (JStr name) /\
    dict_get body "mimeType" = Some (JStr FOLDER_MIME_TYPE) /\
    dict_get body "parents" =
      match folder_id with
      | Some f => if truthy_str folder_id then Some (JList [JStr f])
                  else dict_get kwargs "parents"
      | None => dict_get kwargs "parents"
      end /\
    (forall k, k <> "name" -> k <> "mimeType" -> k <> "parents" ->
       dict_get body k = dict_get kwargs k).
Proof.
  unfold create_folder, create_folder_body. cbv zeta.
  set (kw2 := dict_set (dict_set kwargs "name" (JStr name)) "mimeType"
                       (JStr FOLDER_MIME_TYPE)).
  assert (Hn : dict_get kw2 "name" = Some (JStr name)).
  { unfold kw2. rewrite dict_get_set_other by discriminate. apply dict_get_set_same. }
  assert (Hm : dict_get kw2 "mimeType" = Some (JStr FOLDER_MIME_TYPE)).
  { apply dict_get_set_same. }
  assert (Hp : dict_get kw2 "parents" = dict_get kwargs "parents").
  { unfold kw2. rewrite !dict_get_set_other by discriminate. reflexivity. }
  assert (Ho : forall k, k <> "name" -> k <> "mimeType" -> dict_get kw2 k = dict_get kwargs k).
  { intros k H1 H2. unfold kw2. rewrite !dict_get_set_other by assumption. reflexivity. }
  destruct folder_id as [f|].
  - destruct (truthy_str (Some f)).
    + eexists. split; [reflexivity|]. split; [reflexivity|].
      rewrite !(dict_get_set_other _ "parents") by discriminate.
      split; [exact Hn|]. split; [exact Hm|]. split; [apply dict_get_set_same|].
      intros k H1 H2 H3. rewrite dict_get_set_other by exact H3. apply Ho; assumption.
    + eexists. split; [reflexivity|]. split; [reflexivity|].
      split; [exact Hn|]. split; [exact Hm|]. split; [exact Hp|].
      intros k H1 H2 _. apply Ho; assumption.
  - eexists. split; [reflexivity|]. split; [reflexivity|].
    split; [exact Hn|]. split; [exact Hm|]. split; [exact Hp|].
    intros k H1 H2 _. apply Ho; assumption.
Qed.

(** X7: called without extra keyword arguments, [GDriveWrapper.create_folder]
    sends the same request as the older [_gdrivewrapper.create_folder]
    and gets the same result. *)
Theorem create_folder_matches_legacy (svc : drive_service) (name : string)
    (folder_id : option string) :
  create_folder svc name folder_id [] = legacy_create_folder svc name folder_id.
Proof.
  unfold create_folder, create_folder_body, legacy_create_folder. simpl.
  destruct folder_id as [f|]; [destruct (truthy_str (Some f))|]; reflexivity.
Qed.

Lemma download_loop_none_legacy (done : bool) (st : dl_state) (l : list chunk) :
  match download_loop None done st l with
  | DlDone st' => Some (fp st')
  | DlZeroDivision _ | DlValueError _ | DlStreamExhausted _ => None
  end = legacy_loop done (fp st) l /\
  forall st', download_loop None done st l <> DlZeroDivision st' /\
              download_loop None done st l <> DlValueError st'.
Proof.
  revert done st. induction l as [|c l IH]; intros done st;
    destruct done; simpl; try (split; [reflexivity|split; discriminate]).
  apply (IH (chunk_done c) (mk_dl_state (fp st ++ chunk_data c) (prev_time st)
                                        (prev_bytes st) (sleeps st))).
Qed.

(** X9: the older [_gdrivewrapper.download_bytes] and
    [GDriveWrapper.download_bytes] without a ceiling return the same
    result on every chunk stream, including a stream that runs out. *)
Theorem legacy_download_bytes_matches (media : string -> list chunk) (key : string)
    (t0 : Q) :
  legacy_download_bytes media key = download_bytes media key None t0.
Proof.
  unfold legacy_download_bytes, download_bytes, _download.
  destruct (download_loop_none_legacy false (mk_dl_state [] t0 0 []) (media key))
    as [Heq Hnz].
  simpl in Heq. rewrite <- Heq.
  destruct (download_loop None false (mk_dl_state [] t0 0 []) (media key)) eqn:E;
    try reflexivity; exfalso.
  - exact (proj1 (Hnz st) eq_refl).
  - exact (proj2 (Hnz st) eq_refl).
Qed.

End DriveFacts.

(* ------------------------------------------------------------------ *)
(** ** Properties of [download_file] and of the throttle *)

Module DownloadFileFacts.
Import Download Drive DownloadFacts.

Lemma download_loop_prefix (m : option Z) (done : bool) (st : dl_state)
    (l : list chunk) :
  exists n, fp (result_state (download_loop m done st l)) =
            fp st ++ List.concat (map chunk_data (firstn n l)).
Proof.
  revert done st. induction l as [|c l IH]; intros done st.
  - exists O. destruct done; simpl; rewrite app_nil_r; reflexivity.
  - destruct done; [exists O; simpl; rewrite app_nil_r; reflexivity|].
    simpl download_loop.
    set (st1 := mk_dl_state (fp st ++ chunk_data c) (prev_time st)
                            (prev_bytes st) (sleeps st)).
    destruct (throttle_shape m st1 c) as [Hz|[Hz|(slept & st2 & Hst2 & Hfp & _)]].
    + rewrite Hz. exists 1%nat. simpl. rewrite app_nil_r. reflexivity.
    + rewrite Hz. exists 1%nat. simpl. rewrite app_nil_r. reflexivity.
    + rewrite Hst2. destruct (IH (chunk_done c) st2) as [n Hn].
      exists (S n). rewrite Hn, Hfp. simpl. rewrite app_assoc. reflexivity.
Qed.

(** X10: when [local_path] can be opened, the stream flags [done] on
    its last chunk, and the ceiling is [None], [0], or positive with the
    timer advancing at every chunk, [download_file] leaves exactly the concatenated chunks in the
    file, whatever it held before ([open(..., "wb")] truncates), and
    touches no other file. *)
Theorem download_file_writes_all (s : fs) (media : string -> list chunk)
    (key local_path : string) (m : option Z) (t0 : Q) :
  writable s local_path = true ->
  ends_done (media key) = true ->
  (forall z, m = Some z -> (0 <= z)%Z) ->
  truthy_int m = false \/ times_increasing t0 (media key) = true ->
  let '(s', r) := download_file s media key local_path m t0 in
  r = FileOk /\
  files s' local_path = Some (List.concat (map chunk_data (media key))) /\
  (forall p, p <> local_path -> files s' p = files s p).
Proof.
  intros Hw Hend Hpos Hthr. unfold download_file. rewrite Hw. unfold _download.
  destruct (download_loop_concat m (mk_dl_state [] t0 0 []) (media key) Hpos Hend Hthr)
    as (st' & Hrun & Hfp).
  rewrite Hrun. simpl. split; [reflexivity|]. split.
  - rewrite String.eqb_refl, Hfp. reflexivity.
  - intros p Hp. destruct (String.eqb_spec p local_path); [contradiction|reflexivity].
Qed.

Lemma download_file_writes_all_witness :
  let s0 := mk_fs (fun _ => Some [byte_b]) (fun _ => true) in
  let '(s', r) := download_file s0 two_chunks "F1"%string "out.bin"%string (Some 1) 0%Q in
  r = FileOk /\
  files s' "out.bin"%string = Some (List.concat (map chunk_data (two_chunks "F1"%string))) /\
  (forall p, p <> "out.bin"%string -> files s' p = files s0 p).
Proof.
  apply (download_file_writes_all (mk_fs (fun _ => Some [byte_b]) (fun _ => true))
           two_chunks "F1"%string "out.bin"%string (Some 1) 0%Q);
    [reflexivity|reflexivity|intros z Hz; injection Hz as <-; lia|right; reflexivity].
Defined.

(** X11: whatever the outcome, a [local_path] that can be opened ends up
    holding the bytes of the first [n] chunks in order, for some [n] (a
    failed download leaves a partial file); other files are untouched.  A
    path that cannot be opened leaves the file system unchanged. *)
Theorem download_file_partial (s : fs) (media : string -> list chunk)
    (key local_path : string) (m : option Z) (t0 : Q) :
  let '(s', r) := download_file s media key local_path m t0 in
  if writable s local_path then
    (exists n, files s' local_path =
               Some (List.concat (map chunk_data (firstn n (media key))))) /\
    (forall p, p <> local_path -> files s' p = files s p)
  else s' = s /\ r = FileOpenError.
Proof.
  unfold download_file. destruct (writable s local_path) eqn:Hw; [|split; reflexivity].
  unfold _download.
  destruct (download_loop_prefix m false (mk_dl_state [] t0 0 []) (media key)) as [n Hn].
  assert (Hfile : forall s',
    s' = fs_write s local_path
           (fp (result_state (download_loop m false (mk_dl_state [] t0 0 []) (media key)))) ->
    (exists n, files s' local_path =
               Some (List.concat (map chunk_data (firstn n (media key))))) /\
    (forall p, p <> local_path -> files s' p = files s p)).
  { intros s' ->. split.
    - exists n. simpl. rewrite String.eqb_refl, Hn. reflexivity.
    - intros p Hp. simpl. destruct (String.eqb_spec p local_path); [contradiction|reflexivity]. }
  destruct (download_loop m false (mk_dl_state [] t0 0 []) (media key));
    apply Hfile; reflexivity.
Qed.



End DownloadFileFacts.

(* ------------------------------------------------------------------ *)
(** ** Properties of the credential store path *)

Module CredsPathFacts.
Import CredsPath.

Lemma rfind_aux_notin (c : Ascii.ascii) (s : pystr) (i : nat) (acc : option nat) :
  ~ In c s -> rfind_aux c s i acc = acc.
Proof.
  revert i acc. induction s as [|x s IH]; intros i acc Hn; [reflexivity|].
  simpl. destruct (Ascii.eqb_spec x c) as [->|_]; [exfalso; apply Hn; left; reflexivity|].
  apply IH. intros H. apply Hn. right. exact H.
Qed.

Lemma rfind_aux_last (c : Ascii.ascii) (l1 l2 : pystr) (i : nat) (acc : option nat) :
  ~ In c l2 -> rfind_aux c (l1 ++ c :: l2) i acc = Some (i + List.length l1)%nat.
Proof.
  intros Hn. revert i acc. induction l1 as [|x l1 IH]; intros i acc; simpl.
  - rewrite Ascii.eqb_refl, rfind_aux_notin by exact Hn. f_equal. lia.
  - rewrite IH. f_equal. lia.
Qed.

Lemma firstn_length_app {A} (l1 l2 : list A) : firstn (List.length l1) (l1 ++ l2) = l1.
Proof. rewrite firstn_app, Nat.sub_diag, firstn_all. apply app_nil_r. Qed.

Lemma skipn_length_app {A} (l1 l2 : list A) : skipn (List.length l1) (l1 ++ l2) = l2.
Proof. rewrite skipn_app, Nat.sub_diag, skipn_all. reflexivity. Qed.

Lemma splitext_name_ext (n e : pystr) :
  ~ In SLASH (n ++ DOT :: e) -> ~ In DOT e ->
  existsb (fun x => negb (Ascii.eqb x DOT)) n = true ->
  splitext (n ++ DOT :: e) = (n, DOT :: e).
Proof.
  intros Hs Hd Hx. unfold splitext, rfind.
  rewrite rfind_aux_notin by exact Hs. rewrite rfind_aux_last by exact Hd.
  simpl Nat.add. rewrite Nat2Z.id.
  replace (Z.ltb (-1) (Z.of_nat (List.length n))) with true by (symmetry; apply Z.ltb_lt; lia).
  simpl Z.to_nat. 
  rewrite Nat.sub_0_r. cbn [skipn].
  rewrite !firstn_length_app, skipn_length_app, Hx. reflexivity.
Qed.

(** X13: for a bare file name [name.ext] (no directory part), the
    credential store goes to the file-system root: [get_service_object]
    uses ["/name_store.json"], since [os.path.split] gives an empty parent
    and the f-string still inserts ["/"]. *)
Theorem store_path_bare_name (n e : pystr) :
  ~ In SLASH (n ++ DOT :: e) -> ~ In DOT e ->
  existsb (fun x => negb (Ascii.eqb x DOT)) n = true ->
  store_path (n ++ DOT :: e) = SLASH :: n ++ STORE_SUFFIX.
Proof.
  intros Hs Hd Hx. unfold store_path, split, rfind.
  rewrite rfind_aux_notin by exact Hs. cbn [firstn skipn List.length Nat.eqb negb andb fst snd].
  rewrite splitext_name_ext by assumption. reflexivity.
Qed.

Lemma store_path_bare_name_witness :
  store_path (list_ascii_of_string "creds.json") = list_ascii_of_string "/creds_store.json".
Proof.
  apply (store_path_bare_name (list_ascii_of_string "creds") (list_ascii_of_string "json")).
  - simpl. intuition discriminate.
  - simpl. intuition discriminate.
  - reflexivity.
Defined.

(** X14: for [dir/name.ext], where [dir] is non-empty and does not end in
    ["/"], the store is ["dir/name_store.json"]: the directory is kept and
    only the last extension of the file name is replaced. *)
Theorem store_path_dir_name (d : pystr) (x : Ascii.ascii) (n e : pystr) :
  x <> SLASH -> ~ In SLASH (n ++ DOT :: e) -> ~ In DOT e ->
  existsb (fun y => negb (Ascii.eqb y DOT)) n = true ->
  store_path ((d ++ [x]) ++ SLASH :: n ++ DOT :: e) =
    (d ++ [x]) ++ SLASH :: n ++ STORE_SUFFIX.
Proof.
  intros Hx Hs Hd Hn. unfold store_path, split, rfind.
  rewrite rfind_aux_last by exact Hs. cbn [Nat.add fst snd].
  replace (S (List.length (d ++ [x]))) with (List.length ((d ++ [x]) ++ [SLASH]))
    by (rewrite length_app; simpl; lia).
  replace ((d ++ [x]) ++ SLASH :: n ++ DOT :: e) with (((d ++ [x]) ++ [SLASH]) ++ n ++ DOT :: e)
    by (rewrite <- app_assoc; reflexivity).
  rewrite firstn_length_app, skipn_length_app.
  assert (Hall : forallb (fun y => Ascii.eqb y SLASH) ((d ++ [x]) ++ [SLASH]) = false).
  { rewrite !forallb_app. simpl. destruct (Ascii.eqb_spec x SLASH); [contradiction|].
    rewrite andb_false_r. reflexivity. }
  rewrite Hall.
  assert (Hlen : Nat.eqb (List.length ((d ++ [x]) ++ [SLASH])) 0 = false).
  { apply Nat.eqb_neq. rewrite !length_app. simpl. lia. }
  rewrite Hlen. cbn [negb andb].
  assert (Hstrip : rstrip SLASH ((d ++ [x]) ++ [SLASH]) = d ++ [x]).
  { unfold rstrip. rewrite !rev_app_distr. simpl.
    destruct (Ascii.eqb_spec x SLASH); [contradiction|].
    simpl. rewrite rev_involutive. reflexivity. }
  rewrite Hstrip, splitext_name_ext by assumption. reflexivity.
Qed.
Lemma store_path_dir_name_witness :
  store_path (list_ascii_of_string "home/u/creds.json") =
    list_ascii_of_string "home/u/creds_store.json".
Proof.
  apply (store_path_dir_name (list_ascii_of_string "home/") (Ascii.ascii_of_nat 117)
           (list_ascii_of_string "creds") (list_ascii_of_string "json")).
  - discriminate.
  - simpl. intuition discriminate.
  - simpl. intuition discriminate.
  - reflexivity.
Defined.

End CredsPathFacts.
